(** * Swiss-system tournament: tournament.py

    A shallow embedding of [vagrant/tournament/tournament.py].  Every function
    of the module opens a database connection, runs one SQL statement on it,
    commits where it changed something, and closes the connection.  The
    database is modelled as a record of its two tables and the serial counter
    of [players.id]; a connection as the committed store together with the
    view of the open transaction; a Python function as a function from the
    store to a result (a value or a raised exception) and the store left
    behind. *)

From Stdlib Require Import ZArith Ascii String Lia.
From stdpp Require Import base numbers list strings sorting.

(** ** Python values: results, exceptions, indexing, [range] *)

Module Py.

(** The only exception the module's own code can raise:
    [standings[counter + 1]] past the end of the list. *)
Inductive exn : Type := IndexError.

Definition exn_class (e : exn) : string :=
  match e with IndexError => "IndexError" end.

Inductive result (A : Type) : Type :=
| Return (a : A)
| Raise (e : exn).
Arguments Return {A} a.
Arguments Raise {A} e.

Definition bind {A B} (r : result A) (k : A → result B) : result B :=
  match r with
  | Return a => k a
  | Raise e => Raise e
  end.

(** [l[i]] for a non-negative [i]. *)
Definition index {A} (l : list A) (i : nat) : result A :=
  match l !! i with
  | Some x => Return x
  | None => Raise IndexError
  end.

(** [range(start, stop, step)] for a positive [step]. *)
Definition range (start stop step : nat) : list nat :=
  (λ k, start + k * step) <$> seq 0 ((stop - start + (step - 1)) / step).

(** [for x in xs: s = body(s, x)], abandoned at the first exception. *)
Fixpoint for_in {A S} (xs : list A) (body : S → A → result S) (s : S)
  : result S :=
  match xs with
  | [] => Return s
  | x :: xs' => bind (body s x) (for_in xs' body)
  end.

End Py.
Export Py.

#[export] Instance result_ret : MRet result := @Return.
#[export] Instance result_bind : MBind result := λ A B k r, Py.bind r k.

(** ** The database *)

(** A row of [players]: [insert into players (name)], [count(id)]. *)
Record Player : Type := { p_id : Z; p_name : string }.

(** A row of [matches]: [insert into matches (winner_id, loser_id)]. *)
Record Match : Type := { winner_id : Z; loser_id : Z }.

(** The store.  [players] and [matches] keep their rows in insertion order;
    [players_id_seq] is the next value of the serial that gives a player its
    id ("The database assigns a unique serial id number for the player"). *)
Record DB : Type := {
  players : list Player;
  matches : list Match;
  players_id_seq : Z
}.

Definition empty_db : DB :=
  {| players := []; matches := []; players_id_seq := 1 |}.

(** A tuple fetched from [standings]: [(id, name, wins, matches)]. *)
Record Row : Type := { r_id : Z; r_name : string; r_wins : Z; r_matches : Z }.

(** A tuple returned by [swissPairings]: [(id1, name1, id2, name2)]. *)
Record Pairing : Type := { id1 : Z; name1 : string; id2 : Z; name2 : string }.

(** *** The [standings] view *)

Definition wins_of (ms : list Match) (i : Z) : Z :=
  Z.of_nat (length (filter (λ m, winner_id m = i) ms)).

Definition played_of (ms : list Match) (i : Z) : Z :=
  Z.of_nat (length (filter (λ m, winner_id m = i ∨ loser_id m = i) ms)).

Definition standings_row (ms : list Match) (p : Player) : Row :=
  {| r_id := p_id p; r_name := p_name p;
     r_wins := wins_of ms (p_id p); r_matches := played_of ms (p_id p) |}.

(** [order by wins desc]: rows with more wins first, rows with equal wins in
    the order they came in. *)
Fixpoint insert_by_wins (r : Row) (l : list Row) : list Row :=
  match l with
  | [] => [r]
  | x :: l' =>
      if decide (r_wins r < r_wins x)%Z then x :: insert_by_wins r l'
      else r :: l
  end.

Definition order_by_wins_desc (l : list Row) : list Row :=
  foldr insert_by_wins [] l.

(** Modelled from the spec: the [standings] view, which the schema file
    (not part of the sources at hand) defines.  One row per player with
    [wins] the number of matches the player is the winner of and [matches]
    the number of matches the player is the winner or the loser of, ranked by
    descending wins, ties in insertion (id) order. *)
Definition standings_view (db : DB) : list Row :=
  order_by_wins_desc (standings_row (matches db) <$> players db).

(** *** The statements the module executes *)

(** [delete from matches;] *)
Definition sql_delete_matches (db : DB) : DB :=
  {| players := players db; matches := [];
     players_id_seq := players_id_seq db |}.

(** [delete from players;] *)
Definition sql_delete_players (db : DB) : DB :=
  {| players := []; matches := matches db;
     players_id_seq := players_id_seq db |}.

(** [select count(id) from players;] *)
Definition sql_count_players (db : DB) : Z :=
  Z.of_nat (length (players db)).

(** [insert into players (name) values (%s);] *)
Definition sql_insert_player (name : string) (db : DB) : DB :=
  {| players := players db ++ [{| p_id := players_id_seq db; p_name := name |}];
     matches := matches db;
     players_id_seq := (players_id_seq db + 1)%Z |}.

(** [insert into matches (winner_id, loser_id) values (%s, %s);] *)
Definition sql_insert_match (winner loser : Z) (db : DB) : DB :=
  {| players := players db;
     matches := matches db ++ [{| winner_id := winner; loser_id := loser |}];
     players_id_seq := players_id_seq db |}.

(** [select * from standings;] *)
Definition sql_select_standings (db : DB) : list Row := standings_view db.

(** [select id, name, wins, matches from standings order by wins desc;] *)
Definition sql_select_standings_by_wins (db : DB) : list Row :=
  order_by_wins_desc (standings_view db).

(** ** Connections *)

(** An open connection: the committed store and what the connection's own
    transaction sees. *)
Record Conn : Type := { committed : DB; pending : DB }.

(** Code run inside [with db_connection() as (cursor, connection)]. *)
Definition Tx (A : Type) : Type := Conn → result A * Conn.

Definition tx_ret {A} (a : A) : Tx A := λ c, (Return a, c).

Definition tx_bind {A B} (m : Tx A) (k : A → Tx B) : Tx B :=
  λ c, match m c with
       | (Return a, c') => k a c'
       | (Raise e, c') => (Raise e, c')
       end.

#[export] Instance Tx_ret : MRet Tx := @tx_ret.
#[export] Instance Tx_bind : MBind Tx := λ A B k m, tx_bind m k.

(** [cursor.execute] of a statement that changes rows. *)
Definition execute (stmt : DB → DB) : Tx unit :=
  λ c, (Return tt, {| committed := committed c; pending := stmt (pending c) |}).

(** [cursor.execute] of a query followed by the fetch of its result. *)
Definition fetch {A} (query : DB → A) : Tx A :=
  λ c, (Return (query (pending c)), c).

(** [connection.commit()] *)
Definition commit : Tx unit :=
  λ c, (Return tt, {| committed := pending c; pending := pending c |}).

(** Python code without database access run inside the [with] block. *)
Definition lift {A} (r : result A) : Tx A := λ c, (r, c).

(** [db_connection]: connect, run the body, close.  Closing drops what was
    not committed; so does a connection abandoned by an exception. *)
Definition db_connection {A} (body : Tx A) (db : DB) : result A * DB :=
  let (r, c) := body {| committed := db; pending := db |} in (r, committed c).

(** ** The functions of tournament.py *)

Definition deleteMatches : DB → result unit * DB :=
  db_connection (execute sql_delete_matches;; commit).

Definition deletePlayers : DB → result unit * DB :=
  db_connection (execute sql_delete_players;; commit).

Definition countPlayers : DB → result Z * DB :=
  db_connection (fetch sql_count_players).

Section Sanitizer.

(** [bleach.clean], a function of the bleach library. *)
Variable clean : string → string.

Definition registerPlayer (name : string) : DB → result unit * DB :=
  db_connection (
    let name := clean name in
    execute (sql_insert_player name);; commit).

End Sanitizer.

Definition playerStandings : DB → result (list Row) * DB :=
  db_connection (fetch sql_select_standings).

Definition reportMatch (winner loser : Z) : DB → result unit * DB :=
  db_connection (execute (sql_insert_match winner loser);; commit).

Definition make_pairing (player1 player2 : Row) : Pairing :=
  {| id1 := r_id player1; name1 := r_name player1;
     id2 := r_id player2; name2 := r_name player2 |}.

(** The body of the [for counter in range(0, len(standings), 2)] loop. *)
Definition pair_step (standings : list Row) (result : list Pairing)
    (counter : nat) : Py.result (list Pairing) :=
  player1 ← index standings counter;
  player2 ← index standings (counter + 1);
  Return (result ++ [make_pairing player1 player2]).

(** The loop of [swissPairings], from [result = []] to [return result]. *)
Definition pair_up (standings : list Row) : result (list Pairing) :=
  for_in (range 0 (length standings) 2) (pair_step standings) [].

Definition swissPairings : DB → result (list Pairing) * DB :=
  db_connection (
    standings ← fetch sql_select_standings_by_wins;
    lift (pair_up standings)).

(** ** What the properties speak of *)

(** What the loop computes on a list of even length: the list cut into
    consecutive groups of two. *)
Fixpoint adjacent_pairs (l : list Row) : list Pairing :=
  match l with
  | player1 :: player2 :: l' => make_pairing player1 player2 :: adjacent_pairs l'
  | _ => []
  end.

(** The ids a list of pairings mentions, in order. *)
Definition pairing_ids (ps : list Pairing) : list Z :=
  ps ≫= λ p, [id1 p; id2 p].

(** Pairing [pr] has player [i] on one of its two sides. *)
Definition mentions (i : Z) (pr : Pairing) : Prop := id1 pr = i ∨ id2 pr = i.

#[export] Instance mentions_dec i pr : Decision (mentions i pr).
Proof. unfold mentions. apply _. Defined.

(** [a] may stand before [b] in a list ranked by descending wins. *)
Definition wins_ge (a b : Row) : Prop := (r_wins b ≤ r_wins a)%Z.

(** The total of the wins column. *)
Definition sum_wins (rows : list Row) : Z :=
  foldr (λ r s, (r_wins r + s)%Z) 0%Z rows.


(** No two rows of [players] have the same id. *)
Definition unique_ids (db : DB) : Prop := NoDup (p_id <$> players db).

(** Every id in use was handed out by the serial already. *)
Definition ids_below_seq (db : DB) : Prop :=
  ∀ p, p ∈ players db → (p_id p < players_id_seq db)%Z.

(** The winner of every recorded match is a registered player. *)
Definition winners_registered (db : DB) : Prop :=
  ∀ m, m ∈ matches db → winner_id m ∈ p_id <$> players db.

(** The result is an exception of the class named [cls]. *)
Definition raises_class {A} (r : result A) (cls : string) : Prop :=
  ∃ e, r = Raise e ∧ exn_class e = cls.

(** A call of one of the functions that change the store. *)
Inductive call : Type :=
| CallDeleteMatches
| CallDeletePlayers
| CallRegisterPlayer (name : string)
| CallReportMatch (winner loser : Z).

Section CallsOf.

Variable clean : string → string.

Definition run_call (db : DB) (c : call) : DB :=
  match c with
  | CallDeleteMatches => snd (deleteMatches db)
  | CallDeletePlayers => snd (deletePlayers db)
  | CallRegisterPlayer name => snd (registerPlayer clean name db)
  | CallReportMatch winner loser => snd (reportMatch winner loser db)
  end.

Definition run_calls (cs : list call) : DB := foldl run_call empty_db cs.

End CallsOf.

(** *** What a sequence of calls amounts to *)

(** The names passed to [registerPlayer] since the last [deletePlayers], in
    the order of the calls. *)
Definition names_registered (cs : list call) : list string :=
  foldl (λ names c,
           match c with
           | CallDeletePlayers => []
           | CallRegisterPlayer name => names ++ [name]
           | _ => names
           end) [] cs.


(** Both players of every recorded match are registered. *)
Definition matches_reference_players (db : DB) : Prop :=
  ∀ m, m ∈ matches db →
    winner_id m ∈ p_id <$> players db ∧ loser_id m ∈ p_id <$> players db.

(** A call that keeps the matches pointing at registered players: a result
    is reported for two registered players, and the players are deleted
    only when no match is recorded. *)
Definition call_ok (db : DB) (c : call) : Prop :=
  match c with
  | CallReportMatch winner loser =>
      winner ∈ p_id <$> players db ∧ loser ∈ p_id <$> players db
  | CallDeletePlayers => matches db = []
  | _ => True
  end.

Fixpoint calls_ok (clean : string → string) (db : DB) (cs : list call)
  : Prop :=
  match cs with
  | [] => True
  | c :: cs' => call_ok db c ∧ calls_ok clean (run_call clean db c) cs'
  end.

(** The players a list of pairings names, side by side, in order. *)
Definition pairing_players (ps : list Pairing) : list (Z * string) :=
  ps ≫= λ p, [(id1 p, name1 p); (id2 p, name2 p)].

(** The [id] and [name] columns of a standings row. *)
Definition row_id_name (r : Row) : Z * string := (r_id r, r_name r).

(** A season of three calls: two registrations and the result of the match
    between the two. *)
Definition calls_first_match : list call :=
  [ CallRegisterPlayer "A"; CallRegisterPlayer "B"; CallReportMatch 1 2 ].

(** ** Stores and a sanitizer to run the functions on *)

(** Scenario A of the spec: four registered players, no match. *)
Definition scenario_roster : DB :=
  {| players := [ {| p_id := 1; p_name := "A" |}; {| p_id := 2; p_name := "B" |};
                  {| p_id := 3; p_name := "C" |}; {| p_id := 4; p_name := "D" |} ];
     matches := [];
     players_id_seq := 5 |}.

(** Scenario B of the spec: player 1 beat player 2, player 3 beat player 4. *)
Definition scenario_round1 : DB :=
  {| players := players scenario_roster;
     matches := [ {| winner_id := 1; loser_id := 2 |};
                  {| winner_id := 3; loser_id := 4 |} ];
     players_id_seq := 5 |}.

(** Scenario C of the spec: one registered player, no match. *)
Definition scenario_single : DB :=
  {| players := [ {| p_id := 1; p_name := "A" |} ];
     matches := [];
     players_id_seq := 2 |}.


(** A sanitizer to run [registerPlayer] with.  It writes the characters
    [<], [>] and [&] as character entities, which is what [bleach.clean]
    makes of a tag it does not allow. *)
Fixpoint escape_markup (s : string) : string :=
  match s with
  | EmptyString => EmptyString
  | String c s' =>
      (if Ascii.eqb c "<"%char then "&lt;"
       else if Ascii.eqb c ">"%char then "&gt;"
       else if Ascii.eqb c "&"%char then "&amp;"
       else String c EmptyString) +:+ escape_markup s'
  end.

(** * Lemmas *)

(** ** Runs on concrete stores: scenarios A and B of the spec *)

Example scenario_A_pairings :
  fst (swissPairings scenario_roster)
  = Return [ {| id1 := 1; name1 := "A"; id2 := 2; name2 := "B" |};
             {| id1 := 3; name1 := "C"; id2 := 4; name2 := "D" |} ].
Proof. reflexivity. Qed.

Example scenario_B_standings :
  fst (playerStandings scenario_round1)
  = Return [ {| r_id := 1; r_name := "A"; r_wins := 1; r_matches := 1 |};
             {| r_id := 3; r_name := "C"; r_wins := 1; r_matches := 1 |};
             {| r_id := 2; r_name := "B"; r_wins := 0; r_matches := 1 |};
             {| r_id := 4; r_name := "D"; r_wins := 0; r_matches := 1 |} ].
Proof. reflexivity. Qed.

Example scenario_B_pairings :
  fst (swissPairings scenario_round1)
  = Return [ {| id1 := 1; name1 := "A"; id2 := 3; name2 := "C" |};
             {| id1 := 2; name1 := "B"; id2 := 4; name2 := "D" |} ].
Proof. reflexivity. Qed.

(** ** The pairing loop *)

Section PairUp.

Lemma list_pair_ind {A} (P : list A → Prop) :
  P [] → (∀ a, P [a]) → (∀ a b l, P l → P (a :: b :: l)) → ∀ l, P l.
Proof.
  intros Hnil Hone Hstep l.
  cut (P l ∧ ∀ a, P (a :: l)); [tauto |].
  induction l as [| b l [IH1 IH2]]; split; auto.
Qed.

Lemma range_step2 n :
  range 0 n 2 = (λ k, k * 2) <$> seq 0 ((n + 1) / 2).
Proof. unfold range. by replace (n - 0 + (2 - 1)) with (n + 1) by lia. Qed.

Lemma index_app_r {A} (pre l : list A) i :
  index (pre ++ l) (length pre + i) = index l i.
Proof. unfold index. by rewrite lookup_app_r, Nat.add_comm, Nat.add_sub by lia. Qed.

Lemma half_succ_succ n : (S (S n) + 1) / 2 = S ((n + 1) / 2).
Proof.
  replace (S (S n) + 1) with ((n + 1) + 1 * 2) by lia.
  rewrite Nat.div_add by lia. lia.
Qed.

(** One turn of the loop at [counter = 2 * j], [pre] being the part of the
    standings before that index. *)
Lemma pair_step_at pre l acc j :
  length pre = 2 * j →
  pair_step (pre ++ l) acc (j * 2)
  = match l with
    | a :: b :: _ => Return (acc ++ [make_pairing a b])
    | _ => Raise IndexError
    end.
Proof.
  intros Hpre. unfold pair_step.
  replace (j * 2 + 1) with (length pre + 1) by lia.
  replace (j * 2) with (length pre + 0) by lia.
  rewrite !index_app_r. by destruct l as [| a [| b l]].
Qed.

(** The loop from its [j]-th turn on. *)
Lemma for_in_pair_step l : ∀ pre acc j,
  length pre = 2 * j →
  for_in ((λ k, k * 2) <$> seq j ((length l + 1) / 2))
         (pair_step (pre ++ l)) acc
  = if Nat.even (length l) then Return (acc ++ adjacent_pairs l)
    else Raise IndexError.
Proof.
  induction l as [| a | a b l IH] using list_pair_ind; intros pre acc j Hpre.
  - simpl. by rewrite app_nil_r.
  - cbn [length Nat.add Nat.div Nat.divmod fst seq fmap list_fmap for_in].
    by rewrite pair_step_at.
  - cbn [length]. rewrite half_succ_succ. cbn [seq fmap list_fmap for_in].
    rewrite pair_step_at by done. cbn [Py.bind].
    replace (pre ++ a :: b :: l) with ((pre ++ [a; b]) ++ l)
      by (by rewrite <- app_assoc).
    rewrite (IH (pre ++ [a; b]) _ (S j)) by (rewrite length_app; simpl; lia).
    cbn [Nat.even adjacent_pairs]. by rewrite <- app_assoc.
Qed.

Lemma pair_up_even l :
  Nat.even (length l) = true → pair_up l = Return (adjacent_pairs l).
Proof.
  intros He. unfold pair_up. rewrite range_step2.
  pose proof (for_in_pair_step l [] [] 0 eq_refl) as H.
  rewrite He in H. exact H.
Qed.

Lemma pair_up_odd l :
  Nat.even (length l) = false → pair_up l = Raise IndexError.
Proof.
  intros He. unfold pair_up. rewrite range_step2.
  pose proof (for_in_pair_step l [] [] 0 eq_refl) as H.
  rewrite He in H. exact H.
Qed.

Lemma adjacent_pairs_length l :
  length (adjacent_pairs l) = length l / 2.
Proof.
  induction l as [| a | a b l IH] using list_pair_ind; [done | done |].
  cbn [adjacent_pairs length]. rewrite IH.
  replace (S (S (length l))) with (length l + 1 * 2) by lia.
  rewrite Nat.div_add by lia. lia.
Qed.


Lemma adjacent_pairs_ids l :
  Nat.even (length l) = true → pairing_ids (adjacent_pairs l) = r_id <$> l.
Proof.
  induction l as [| a | a b l IH] using list_pair_ind; intros He;
    [done | done |].
  cbn [adjacent_pairs]. unfold pairing_ids in *. rewrite bind_cons.
  rewrite IH by done. done.
Qed.

End PairUp.

(** ** [order by wins desc] *)

Section OrderBy.

#[local] Instance wins_ge_trans : Transitive wins_ge.
Proof. unfold wins_ge. intros a b c ? ?. lia. Qed.

Lemma insert_by_wins_perm r l : insert_by_wins r l ≡ₚ r :: l.
Proof.
  induction l as [| x l IH]; simpl; [done |].
  case_decide; [| done]. rewrite IH. apply Permutation_swap.
Qed.

Lemma order_by_wins_desc_perm l : order_by_wins_desc l ≡ₚ l.
Proof.
  induction l as [| r l IH]; simpl; [done |].
  by rewrite insert_by_wins_perm, IH.
Qed.

Lemma insert_by_wins_hd r x l :
  wins_ge x r → HdRel wins_ge x l → HdRel wins_ge x (insert_by_wins r l).
Proof.
  intros Hxr Hl. destruct l as [| y l]; simpl.
  - by constructor.
  - case_decide; constructor; [by inversion Hl | done].
Qed.

Lemma insert_by_wins_sorted r l :
  Sorted wins_ge l → Sorted wins_ge (insert_by_wins r l).
Proof.
  induction 1 as [| x l Hs IH Hhd]; simpl.
  - by repeat constructor.
  - case_decide.
    + constructor; [done |]. apply insert_by_wins_hd; [| done].
      unfold wins_ge. lia.
    + constructor; [by constructor |]. constructor. unfold wins_ge. lia.
Qed.

Lemma order_by_wins_desc_sorted l : Sorted wins_ge (order_by_wins_desc l).
Proof.
  induction l as [| r l IH]; simpl; [constructor |].
  by apply insert_by_wins_sorted.
Qed.

(** Ordering a list that is ranked already changes nothing. *)
Lemma order_by_wins_desc_id l :
  Sorted wins_ge l → order_by_wins_desc l = l.
Proof.
  induction 1 as [| x l Hs IH Hhd]; simpl; [done |].
  rewrite IH. destruct Hhd as [| y l Hxy]; simpl; [done |].
  case_decide; [| done]. unfold wins_ge in Hxy. lia.
Qed.


Lemma sum_wins_cons r l : sum_wins (r :: l) = (r_wins r + sum_wins l)%Z.
Proof. reflexivity. Qed.

Lemma sum_wins_perm l l' : l ≡ₚ l' → sum_wins l = sum_wins l'.
Proof. induction 1; simpl; lia. Qed.

End OrderBy.

(** ** The store the functions work on *)

(** Each function as the statement it runs between connect and close. *)
Section Runs.

Lemma deleteMatches_run db :
  deleteMatches db = (Return tt, sql_delete_matches db).
Proof. reflexivity. Qed.

Lemma deletePlayers_run db :
  deletePlayers db = (Return tt, sql_delete_players db).
Proof. reflexivity. Qed.

Lemma countPlayers_run db :
  countPlayers db = (Return (sql_count_players db), db).
Proof. reflexivity. Qed.

Lemma registerPlayer_run clean name db :
  registerPlayer clean name db
  = (Return tt, sql_insert_player (clean name) db).
Proof. reflexivity. Qed.

Lemma reportMatch_run winner loser db :
  reportMatch winner loser db
  = (Return tt, sql_insert_match winner loser db).
Proof. reflexivity. Qed.

End Runs.

Section Calls.

Variable clean : string → string.

Lemma run_call_serial db c :
  unique_ids db ∧ ids_below_seq db →
  unique_ids (run_call clean db c) ∧ ids_below_seq (run_call clean db c).
Proof.
  intros [Hu Hb]. destruct c as [| | name | w l];
    unfold unique_ids, ids_below_seq, run_call in *;
    rewrite ?deleteMatches_run, ?deletePlayers_run, ?registerPlayer_run,
      ?reportMatch_run; cbn.
  - done.
  - split; [constructor | by intros p ?%elem_of_nil].
  - split.
    + rewrite fmap_app. apply NoDup_app. split_and!; [done | | ].
      * intros i Hi [->|[]%elem_of_nil]%elem_of_cons.
        apply list_elem_of_fmap in Hi as (p & Hp & Hin).
        apply Hb in Hin. cbn in Hp. lia.
      * apply NoDup_singleton.
    + intros p [Hin | ->%list_elem_of_singleton]%elem_of_app.
      * apply Hb in Hin. lia.
      * cbn. lia.
  - done.
Qed.

(** Whatever was called since the tables were created, the serial kept the
    ids of the registered players apart. *)
Lemma run_calls_unique_ids cs : unique_ids (run_calls clean cs).
Proof.
  cut (unique_ids (run_calls clean cs) ∧ ids_below_seq (run_calls clean cs));
  [tauto |].
  unfold run_calls. induction cs as [| c cs IH] using rev_ind.
  - split; [constructor | by intros p ?%elem_of_nil].
  - rewrite foldl_app. by apply run_call_serial.
Qed.

End Calls.

Lemma reportMatch_winners_registered winner loser db :
  winner ∈ p_id <$> players db →
  winners_registered db →
  winners_registered (snd (reportMatch winner loser db)).
Proof.
  intros Hw Hreg m. rewrite reportMatch_run.
  intros [Hin | ->%list_elem_of_singleton]%elem_of_app; cbn.
  - by apply Hreg.
  - done.
Qed.

Lemma registerPlayer_winners_registered clean name db :
  winners_registered db →
  winners_registered (snd (registerPlayer clean name db)).
Proof.
  intros Hreg m Hin. rewrite registerPlayer_run in *. cbn in *.
  rewrite fmap_app, elem_of_app. left.
  by apply Hreg.
Qed.

Lemma deleteMatches_winners_registered db :
  winners_registered (snd (deleteMatches db)).
Proof. rewrite deleteMatches_run. by intros m ?%elem_of_nil. Qed.

(** ** What the queries fetch *)

Section Standings.

Lemma playerStandings_fetch db :
  playerStandings db = (Return (standings_view db), db).
Proof. reflexivity. Qed.

Lemma standings_view_perm db :
  standings_view db ≡ₚ standings_row (matches db) <$> players db.
Proof. apply order_by_wins_desc_perm. Qed.

Lemma standings_view_sorted db : Sorted wins_ge (standings_view db).
Proof. apply order_by_wins_desc_sorted. Qed.

Lemma standings_view_length db :
  length (standings_view db) = length (players db).
Proof. by rewrite standings_view_perm, length_fmap. Qed.

Lemma standings_view_ids db :
  r_id <$> standings_view db ≡ₚ p_id <$> players db.
Proof.
  rewrite standings_view_perm, <- list_fmap_compose.
  by apply Permutation_refl.
Qed.

(** The second ordering of [swissPairings] finds the view ranked. *)
Lemma select_by_wins_view db :
  sql_select_standings_by_wins db = standings_view db.
Proof. apply order_by_wins_desc_id, standings_view_sorted. Qed.

Lemma swissPairings_fetch db :
  swissPairings db = (pair_up (standings_view db), db).
Proof.
  change (swissPairings db)
    with (pair_up (sql_select_standings_by_wins db), db).
  by rewrite select_by_wins_view.
Qed.

Lemma wins_le_played ms i : (0 ≤ wins_of ms i ≤ played_of ms i)%Z.
Proof.
  unfold wins_of, played_of. split; [lia |]. apply inj_le.
  induction ms as [| m ms IH]; [done |].
  rewrite !filter_cons. repeat case_decide; simpl; first [lia | tauto].
Qed.

Lemma not_played ms i :
  (∀ m, m ∈ ms → winner_id m ≠ i ∧ loser_id m ≠ i) →
  wins_of ms i = 0%Z ∧ played_of ms i = 0%Z.
Proof.
  intros Hno. unfold wins_of, played_of.
  induction ms as [| m ms IH]; [done |].
  destruct (Hno m) as [Hw Hl]; [by left |].
  rewrite !filter_cons_False by tauto.
  apply IH. intros m' Hin. apply Hno. by right.
Qed.

Lemma standings_view_zero_row db p :
  p ∈ players db →
  (∀ m, m ∈ matches db → winner_id m ≠ p_id p ∧ loser_id m ≠ p_id p) →
  {| r_id := p_id p; r_name := p_name p; r_wins := 0; r_matches := 0 |}
  ∈ standings_view db.
Proof.
  intros Hp Hno. rewrite standings_view_perm.
  apply not_played in Hno as [Hw Hm].
  apply list_elem_of_fmap. exists p. split; [| done].
  unfold standings_row. by rewrite Hw, Hm.
Qed.

(** A match adds one win to the tally of its winner and to no other. *)
Lemma wins_of_cons m ms i :
  wins_of (m :: ms) i
  = ((if decide (winner_id m = i) then 1 else 0) + wins_of ms i)%Z.
Proof. unfold wins_of. rewrite filter_cons. case_decide; simpl length; lia. Qed.

Lemma sum_wins_rows_cons m ms ps :
  sum_wins (standings_row (m :: ms) <$> ps)
  = (Z.of_nat (length (filter (λ p, winner_id m = p_id p) ps))
     + sum_wins (standings_row ms <$> ps))%Z.
Proof.
  induction ps as [| p ps IH]; [done |].
  rewrite filter_cons, !fmap_cons, !sum_wins_cons, IH.
  cbn [standings_row r_wins]. rewrite wins_of_cons.
  case_decide; simpl length; lia.
Qed.

Lemma no_player_has_id ps i :
  i ∉ p_id <$> ps → length (filter (λ p, i = p_id p) ps) = 0.
Proof.
  induction ps as [| p ps IH]; intros Hnot; [done |].
  rewrite fmap_cons, not_elem_of_cons in Hnot. destruct Hnot as [Hp Hps].
  rewrite filter_cons_False by done. by apply IH.
Qed.

Lemma one_player_has_id ps i :
  NoDup (p_id <$> ps) → i ∈ p_id <$> ps →
  length (filter (λ p, i = p_id p) ps) = 1.
Proof.
  induction ps as [| p ps IH]; intros Hnd Hin.
  - by apply elem_of_nil in Hin.
  - rewrite fmap_cons in Hnd, Hin. apply NoDup_cons in Hnd as [Hp Hnd].
    rewrite filter_cons. case_decide as Hi.
    + simpl. f_equal. apply no_player_has_id. by rewrite Hi.
    + apply IH; [done |]. apply elem_of_cons in Hin as [-> | Hin]; done.
Qed.

Lemma sum_wins_rows ms : ∀ ps,
  NoDup (p_id <$> ps) →
  (∀ m, m ∈ ms → winner_id m ∈ p_id <$> ps) →
  sum_wins (standings_row ms <$> ps) = Z.of_nat (length ms).
Proof.
  induction ms as [| m ms IH]; intros ps Hnd Hreg.
  - induction ps as [| p ps IH]; [done |].
    apply NoDup_cons in Hnd as [_ Hnd]. cbn in *. apply IH; [done |].
    by intros m ?%elem_of_nil.
  - rewrite sum_wins_rows_cons, IH, one_player_has_id; try done.
    + simpl length. lia.
    + apply Hreg. by left.
    + intros m' Hin. apply Hreg. by right.
Qed.

End Standings.

(** ** Pairings whose ids are all different *)

Section Pairings.

Lemma pairing_ids_cons pr ps :
  pairing_ids (pr :: ps) = id1 pr :: id2 pr :: pairing_ids ps.
Proof. reflexivity. Qed.

Lemma mentions_none ps i :
  i ∉ pairing_ids ps → length (filter (mentions i) ps) = 0.
Proof.
  induction ps as [| pr ps IH]; intros Hnot; [done |].
  rewrite pairing_ids_cons, !not_elem_of_cons in Hnot.
  destruct Hnot as (H1 & H2 & Hps).
  rewrite filter_cons_False; [by apply IH |].
  unfold mentions. intros [? | ?]; congruence.
Qed.

Lemma mentions_once ps i :
  NoDup (pairing_ids ps) → i ∈ pairing_ids ps →
  length (filter (mentions i) ps) = 1.
Proof.
  induction ps as [| pr ps IH]; intros Hnd Hin.
  - by apply elem_of_nil in Hin.
  - rewrite pairing_ids_cons in Hnd, Hin.
    apply NoDup_cons in Hnd as [H1 Hnd]. apply NoDup_cons in Hnd as [H2 Hnd].
    rewrite not_elem_of_cons in H1. destruct H1 as [H12 H1].
    rewrite filter_cons. case_decide as Hm.
    + simpl. f_equal. apply mentions_none.
      destruct Hm as [<- | <-]; done.
    + apply IH; [done |]. unfold mentions in Hm.
      rewrite !elem_of_cons in Hin. destruct Hin as [-> | [-> | Hin]]; tauto.
Qed.

Lemma pairing_sides_differ ps pr :
  NoDup (pairing_ids ps) → pr ∈ ps → id1 pr ≠ id2 pr.
Proof.
  induction ps as [| pr' ps IH]; intros Hnd Hin.
  - by apply elem_of_nil in Hin.
  - rewrite pairing_ids_cons in Hnd.
    apply NoDup_cons in Hnd as [H1 Hnd]. apply NoDup_cons in Hnd as [H2 Hnd].
    apply elem_of_cons in Hin as [-> | Hin]; [| by apply IH].
    rewrite not_elem_of_cons in H1. tauto.
Qed.

End Pairings.

Lemma even_length_half {A} (l : list A) :
  Nat.Even (length l) → Nat.even (length l) = true.
Proof. apply Nat.even_spec. Qed.

Lemma odd_length_not_even {A} (l : list A) :
  Nat.Odd (length l) → Nat.even (length l) = false.
Proof.
  intros Ho%Nat.odd_spec. by rewrite <- Nat.negb_odd, Ho.
Qed.

(** * The properties *)

(** C1.  With an even number of registered players, each with an id of their
    own, [swissPairings] returns half as many pairings as there are players,
    whatever matches were recorded; every player's id is in exactly one of
    the pairings, and no pairing has the same id on both sides. *)
Theorem swissPairings_pairs_every_player (db : DB) :
  unique_ids db →
  Nat.Even (length (players db)) →
  ∃ ps, swissPairings db = (Return ps, db)
    ∧ length ps = length (players db) / 2
    ∧ (∀ p, p ∈ players db → length (filter (mentions (p_id p)) ps) = 1)
    ∧ (∀ pr, pr ∈ ps → id1 pr ≠ id2 pr)
    ∧ pairing_ids ps ≡ₚ p_id <$> players db.
Proof.
  intros Hu He. exists (adjacent_pairs (standings_view db)).
  assert (Nat.even (length (standings_view db)) = true) as Hev.
  { rewrite standings_view_length. by apply even_length_half. }
  assert (pairing_ids (adjacent_pairs (standings_view db))
          ≡ₚ p_id <$> players db) as Hids.
  { rewrite adjacent_pairs_ids by done. apply standings_view_ids. }
  assert (NoDup (pairing_ids (adjacent_pairs (standings_view db)))) as Hnd.
  { by rewrite Hids. }
  split_and!.
  - by rewrite swissPairings_fetch, pair_up_even.
  - by rewrite adjacent_pairs_length, standings_view_length.
  - intros p Hp. apply mentions_once; [done |].
    rewrite Hids. by apply list_elem_of_fmap_2.
  - intros pr. by apply pairing_sides_differ.
  - done.
Qed.

Lemma swissPairings_pairs_every_player_witness :
  ∃ ps, swissPairings scenario_round1 = (Return ps, scenario_round1)
    ∧ length ps = length (players scenario_round1) / 2
    ∧ (∀ p, p ∈ players scenario_round1 →
         length (filter (mentions (p_id p)) ps) = 1)
    ∧ (∀ pr, pr ∈ ps → id1 pr ≠ id2 pr)
    ∧ pairing_ids ps ≡ₚ p_id <$> players scenario_round1.
Proof.
  apply (swissPairings_pairs_every_player scenario_round1).
  - unfold unique_ids. apply (bool_decide_unpack _). vm_compute. exact I.
  - exists 2. reflexivity.
Defined.

(** C2, as the claim words it, does not hold: with one registered player
    [swissPairings] raises, but what it raises is [IndexError], and not an
    exception of a class [InvalidRosterError]. *)
Lemma swissPairings_single_not_InvalidRosterError :
  fst (swissPairings scenario_single) = Raise IndexError
  ∧ ¬ raises_class (fst (swissPairings scenario_single)) "InvalidRosterError".
Proof.
  split; [reflexivity |].
  intros (e & He & Hcls). destruct e. vm_compute in Hcls. discriminate.
Qed.

(** C2, amended.  On standings of odd length the pairing loop fails: pairing
    the last row, it reads one place past the end of the standings, which
    raises [IndexError].  The exception leaves [swissPairings] for its
    caller, no list of pairings is returned, and the store is as it was. *)
Theorem swissPairings_odd_raises_IndexError (standings : list Row) :
  Nat.Odd (length standings) →
  pair_up standings = Raise IndexError
  ∧ (∀ db, sql_select_standings_by_wins db = standings →
       swissPairings db = (Raise IndexError, db)
       ∧ raises_class (fst (swissPairings db)) "IndexError").
Proof.
  intros Ho%odd_length_not_even%pair_up_odd. split; [done |].
  intros db Hfetch.
  change (swissPairings db) with (pair_up (sql_select_standings_by_wins db), db).
  rewrite Hfetch, Ho. split; [done |]. by exists IndexError.
Qed.

Lemma swissPairings_odd_raises_IndexError_witness :
  pair_up (sql_select_standings_by_wins scenario_single) = Raise IndexError
  ∧ swissPairings scenario_single = (Raise IndexError, scenario_single)
  ∧ raises_class (fst (swissPairings scenario_single)) "IndexError".
Proof.
  destruct (swissPairings_odd_raises_IndexError
              (sql_select_standings_by_wins scenario_single)) as [Hup Hdb].
  - exists 0. reflexivity.
  - split; [exact Hup |]. by apply Hdb.
Defined.

(** With an odd number of registered players the standings [swissPairings]
    fetches have odd length. *)
Lemma swissPairings_odd_roster db :
  Nat.Odd (length (players db)) → swissPairings db = (Raise IndexError, db).
Proof.
  intros Ho. rewrite swissPairings_fetch, pair_up_odd; [done |].
  apply odd_length_not_even. by rewrite standings_view_length.
Qed.




(** C5.  With no registered player, whatever the [matches] table holds,
    [playerStandings] returns the empty list and [swissPairings] returns the
    empty list; neither raises. *)
Theorem empty_roster_empty_results (ms : list Match) (next_id : Z) :
  playerStandings {| players := []; matches := ms; players_id_seq := next_id |}
  = (Return [], {| players := []; matches := ms; players_id_seq := next_id |})
  ∧ swissPairings {| players := []; matches := ms; players_id_seq := next_id |}
    = (Return [], {| players := []; matches := ms; players_id_seq := next_id |}).
Proof. split; reflexivity. Qed.



(** C7.  In every row [playerStandings] returns, the wins are at least 0 and
    at most the matches. *)
Theorem playerStandings_wins_le_matches (db : DB) :
  ∃ rows, playerStandings db = (Return rows, db)
    ∧ Forall (λ r, (0 ≤ r_wins r ≤ r_matches r)%Z) rows.
Proof.
  exists (standings_view db). split; [apply playerStandings_fetch |].
  rewrite standings_view_perm. apply Forall_fmap, Forall_forall.
  intros p _. apply wins_le_played.
Qed.

(** C8.  When the registered players have ids of their own and the winner of
    every recorded match is a registered player, the wins column of what
    [playerStandings] returns adds up to the number of recorded matches. *)
Theorem playerStandings_sum_wins (db : DB) :
  unique_ids db →
  winners_registered db →
  ∃ rows, playerStandings db = (Return rows, db)
    ∧ sum_wins rows = Z.of_nat (length (matches db)).
Proof.
  intros Hu Hreg. exists (standings_view db).
  split; [apply playerStandings_fetch |].
  rewrite (sum_wins_perm _ _ (standings_view_perm db)).
  by apply sum_wins_rows.
Qed.

Lemma playerStandings_sum_wins_witness :
  ∃ rows, playerStandings scenario_round1 = (Return rows, scenario_round1)
    ∧ sum_wins rows = Z.of_nat (length (matches scenario_round1)).
Proof.
  apply (playerStandings_sum_wins scenario_round1).
  - unfold unique_ids. apply (bool_decide_unpack _). vm_compute. exact I.
  - intros m Hm. simpl in Hm.
    repeat (apply elem_of_cons in Hm as [-> | Hm]);
      [.. | by apply elem_of_nil in Hm];
      apply (bool_decide_unpack _); vm_compute; exact I.
Defined.

Example escape_markup_script :
  escape_markup "<script>" = "&lt;script&gt;"%string.
Proof. reflexivity. Qed.

(** C9.  [registerPlayer] adds one row to [players], with the next id of the
    serial and the name [bleach.clean] made of its argument; the rows that
    were there stay.  So whenever [bleach.clean] changes the name, the name
    in the new row is not the name that was passed. *)
Theorem registerPlayer_stores_clean_name
    (clean : string → string) (name : string) (db : DB) :
  ∃ db', registerPlayer clean name db = (Return tt, db')
    ∧ players db'
      = players db ++ [ {| p_id := players_id_seq db; p_name := clean name |} ]
    ∧ p_name <$> last (players db') = Some (clean name)
    ∧ (clean name ≠ name → p_name <$> last (players db') ≠ Some name).
Proof.
  exists (sql_insert_player (clean name) db). split_and!.
  - apply registerPlayer_run.
  - done.
  - cbn. by rewrite last_snoc.
  - intros Hne. cbn. rewrite last_snoc. cbn. congruence.
Qed.

(** With markup in the name, what is stored is not what was passed. *)
Lemma registerPlayer_stores_clean_name_witness :
  ∃ db', registerPlayer escape_markup "<script>" empty_db = (Return tt, db')
    ∧ players db' = [ {| p_id := 1; p_name := "&lt;script&gt;" |} ]
    ∧ p_name <$> last (players db') ≠ Some "<script>"%string.
Proof.
  destruct (registerPlayer_stores_clean_name escape_markup "<script>" empty_db)
    as (db' & Hrun & Hplayers & _ & Hne).
  exists db'. split_and!; [done | done |]. by apply Hne.
Defined.

(** C10.  [deleteMatches] empties the [matches] table and leaves the
    [players] table as it was: [countPlayers] returns afterwards what it
    returned before, and every player registered before has a row in the
    standings afterwards, with 0 wins and 0 matches. *)
Theorem deleteMatches_keeps_players (db : DB) :
  ∃ db', deleteMatches db = (Return tt, db')
    ∧ matches db' = []
    ∧ players db' = players db
    ∧ fst (countPlayers db') = fst (countPlayers db)
    ∧ snd (countPlayers db') = db'
    ∧ ∃ rows, playerStandings db' = (Return rows, db')
        ∧ length rows = length (players db)
        ∧ ∀ p, p ∈ players db →
            {| r_id := p_id p; r_name := p_name p;
               r_wins := 0; r_matches := 0 |} ∈ rows.
Proof.
  exists (sql_delete_matches db). split_and!; try done.
  exists (standings_view (sql_delete_matches db)). split_and!.
  - apply playerStandings_fetch.
  - exact (standings_view_length (sql_delete_matches db)).
  - intros p Hp.
    apply (standings_view_zero_row (sql_delete_matches db) p Hp).
    by intros m ?%elem_of_nil.
Qed.

(** * What sequences of calls add up to *)

Section CallSequences.

Variable clean : string → string.

Lemma run_calls_snoc cs c :
  run_calls clean (cs ++ [c]) = run_call clean (run_calls clean cs) c.
Proof. unfold run_calls. by rewrite foldl_app. Qed.

Lemma names_registered_snoc cs c :
  names_registered (cs ++ [c])
  = match c with
    | CallDeletePlayers => []
    | CallRegisterPlayer name => names_registered cs ++ [name]
    | _ => names_registered cs
    end.
Proof. unfold names_registered. by rewrite foldl_app. Qed.


Lemma run_call_players db c :
  players (run_call clean db c)
  = match c with
    | CallDeletePlayers => []
    | CallRegisterPlayer name =>
        players db ++ [{| p_id := players_id_seq db; p_name := clean name |}]
    | _ => players db
    end.
Proof. by destruct c. Qed.

Lemma run_call_matches db c :
  matches (run_call clean db c)
  = match c with
    | CallDeleteMatches => []
    | CallReportMatch winner loser =>
        matches db ++ [{| winner_id := winner; loser_id := loser |}]
    | _ => matches db
    end.
Proof. by destruct c. Qed.

Lemma run_call_references db c :
  call_ok db c →
  matches_reference_players db →
  matches_reference_players (run_call clean db c).
Proof.
  intros Hok Href m. rewrite run_call_matches, run_call_players.
  destruct c as [| | name | winner loser]; cbn in Hok.
  - by intros ?%elem_of_nil.
  - rewrite Hok. by intros ?%elem_of_nil.
  - intros [Hw Hl]%Href. rewrite fmap_app, !elem_of_app. auto.
  - intros [Hin | ->%list_elem_of_singleton]%elem_of_app; [by apply Href |].
    done.
Qed.

Lemma foldl_run_call_references cs : ∀ db,
  calls_ok clean db cs →
  matches_reference_players db →
  matches_reference_players (foldl (run_call clean) db cs).
Proof.
  induction cs as [| c cs IH]; intros db Hok Href; [done |].
  destruct Hok as [Hc Hcs]. cbn [foldl]. apply IH; [done |].
  by apply run_call_references.
Qed.

End CallSequences.

Lemma adjacent_pairs_players l :
  Nat.even (length l) = true →
  pairing_players (adjacent_pairs l) = row_id_name <$> l.
Proof.
  induction l as [| a | a b l IH] using list_pair_ind; intros He;
    [done | done |].
  cbn [adjacent_pairs]. unfold pairing_players in *. rewrite bind_cons.
  rewrite IH by done. done.
Qed.

(** X2.  After any sequence of calls on a new store, the names in the
    [players] table are what [bleach.clean] made of the names passed to
    [registerPlayer] since the last [deletePlayers], one row per call, in
    the order of the calls, a name passed twice being there twice; and
    [countPlayers] returns their number. *)
Theorem run_calls_names_registered
    (clean : string → string) (cs : list call) :
  p_name <$> players (run_calls clean cs) = clean <$> names_registered cs
  ∧ countPlayers (run_calls clean cs)
    = (Return (Z.of_nat (length (names_registered cs))), run_calls clean cs).
Proof.
  assert (p_name <$> players (run_calls clean cs)
          = clean <$> names_registered cs) as Hnames.
  { induction cs as [| c cs IH] using rev_ind; [done |].
    rewrite run_calls_snoc, names_registered_snoc, run_call_players.
    destruct c; [done | done | | done].
    by rewrite !fmap_app, IH. }
  split; [done |]. rewrite countPlayers_run. unfold sql_count_players.
  by rewrite <- (length_fmap p_name), Hnames, length_fmap.
Qed.


(** X4.  When every [reportMatch] of a sequence of calls on a new store is
    for two players registered at the time, and every [deletePlayers] comes
    when no match is recorded, both players of every recorded match are
    registered players at the end. *)
Theorem run_calls_matches_reference_players
    (clean : string → string) (cs : list call) :
  calls_ok clean empty_db cs →
  matches_reference_players (run_calls clean cs).
Proof.
  intros Hok. apply foldl_run_call_references; [done |].
  by intros m ?%elem_of_nil.
Qed.

Lemma run_calls_matches_reference_players_witness :
  matches_reference_players (run_calls escape_markup calls_first_match).
Proof.
  apply (run_calls_matches_reference_players escape_markup calls_first_match).
  cbn. repeat split; apply (bool_decide_unpack _); vm_compute; exact I.
Defined.

(** X5.  When [swissPairings] returns a list of pairings, reading the two
    sides of the pairings one after the other gives back the [id] and
    [name] columns of the standings it fetched, row by row: no row is left
    out, none is used twice, and the order is kept. *)
Theorem swissPairings_keeps_every_row (db : DB) (ps : list Pairing) :
  fst (swissPairings db) = Return ps →
  pairing_players ps = row_id_name <$> sql_select_standings_by_wins db.
Proof.
  change (fst (swissPairings db))
    with (pair_up (sql_select_standings_by_wins db)).
  destruct (Nat.even (length (sql_select_standings_by_wins db))) eqn:He.
  - rewrite pair_up_even by done. intros [= <-].
    by apply adjacent_pairs_players.
  - by rewrite pair_up_odd.
Qed.

Lemma swissPairings_keeps_every_row_witness :
  pairing_players
    [ {| id1 := 1; name1 := "A"; id2 := 3; name2 := "C" |};
      {| id1 := 2; name1 := "B"; id2 := 4; name2 := "D" |} ]
  = row_id_name <$> sql_select_standings_by_wins scenario_round1.
Proof.
  apply (swissPairings_keeps_every_row scenario_round1). reflexivity.
Defined.
